(** * threadpoolpattern.cpp: a fixed-size worker pool on one mutex and one
    condition variable.

    The program is embedded as an interleaving transition system.  Every
    thread of the program (each [worker], each activation of
    [thread_pool::enqueue], the thread running [~thread_pool]) has a program
    counter naming the source line it is about to execute; one scheduler
    label runs one such line.  [queue_mutex_] is modelled by its owner and
    [cv_] by the workers parked in [cv_.wait]. *)

From stdpp Require Import base option list.

(** * Part 1: the program and the properties *)

(** ** Data model *)

(** [function<void()>]: an opaque callable.  The engine only ever calls it;
    what it can observe is whether the call returns or throws. *)
Record task := Task { task_id : nat; throws : bool }.

(** Threads that can own [queue_mutex_]. *)
Inductive tid :=
| Worker (i : nat)
| Caller (j : nat).

(** Program counter of [worker::operator()] (lines 81-96). *)
Inductive worker_pc :=
| WLock                (* 83: unique_lock<mutex> locker(pool_.queue_mutex_) *)
| WCheckStop           (* 85: if (pool_.stop_) return *)
| WCheckEmpty          (* 89: while (pool_.tasks_.empty()) *)
| WWait                (* 90: parked inside cv_.wait, mutex released *)
| WWoken               (* 90: woken inside cv_.wait, re-acquiring the mutex *)
| WFront               (* 92: task = pool_.tasks_.front() *)
| WPop (t : task)      (* 93: pool_.tasks_.pop_front() *)
| WUnlock (t : task)   (* 94: locker.unlock() *)
| WRun (t : task)      (* 95: task() *)
| WDone.               (* 86: returned *)

(** Program counter of one activation of [thread_pool::enqueue]
    (lines 114-120). *)
Inductive enqueue_pc :=
| ELock (f : task)     (* 117: unique_lock<mutex> lock(queue_mutex_) *)
| EPush (f : task)     (* 118: tasks_.push_back(function<void()>(f)) *)
| ENotify              (* 119: cv_.notify_one() *)
| EUnlock              (* 120: end of scope, lock released *)
| EReturned.

(** Program counter of [thread_pool::~thread_pool] (lines 105-111). *)
Inductive dtor_pc :=
| DAlive               (* the destructor has not been entered *)
| DJoin (k : nat)      (* 109-110: about to join workers_[k] *)
| DDone.               (* the destructor has returned *)

(** The members of [thread_pool] that the code uses ([m_] is never touched),
    the threads working on it, and history variables that record what was
    pushed, popped and run, in the order it happened. *)
Record pool := Pool {
  tasks_ : list task;             (* deque<function<void()>> tasks_ *)
  stop_ : bool;                   (* bool stop_ *)
  queue_mutex_ : option tid;      (* mutex queue_mutex_: its owner *)
  workers_ : list worker_pc;      (* vector<thread> workers_ *)
  callers : list enqueue_pc;      (* activations of enqueue *)
  dtor : dtor_pc;
  terminated : bool;              (* std::terminate has been called *)
  undefined : bool;               (* front/pop_front ran on an empty deque *)
  submitted : list task;          (* history of push_back *)
  popped : list task;             (* history of pop_front *)
  executed : list task            (* history of completed task() calls *)
}.

Definition set_tasks (q : list task) (s : pool) : pool :=
  Pool q (stop_ s) (queue_mutex_ s) (workers_ s) (callers s) (dtor s)
       (terminated s) (undefined s) (submitted s) (popped s) (executed s).
Definition set_stop (b : bool) (s : pool) : pool :=
  Pool (tasks_ s) b (queue_mutex_ s) (workers_ s) (callers s) (dtor s)
       (terminated s) (undefined s) (submitted s) (popped s) (executed s).
Definition set_mutex (m : option tid) (s : pool) : pool :=
  Pool (tasks_ s) (stop_ s) m (workers_ s) (callers s) (dtor s)
       (terminated s) (undefined s) (submitted s) (popped s) (executed s).
Definition set_worker (i : nat) (pc : worker_pc) (s : pool) : pool :=
  Pool (tasks_ s) (stop_ s) (queue_mutex_ s) (<[i:=pc]> (workers_ s))
       (callers s) (dtor s)
       (terminated s) (undefined s) (submitted s) (popped s) (executed s).
Definition set_caller (j : nat) (pc : enqueue_pc) (s : pool) : pool :=
  Pool (tasks_ s) (stop_ s) (queue_mutex_ s) (workers_ s)
       (<[j:=pc]> (callers s)) (dtor s)
       (terminated s) (undefined s) (submitted s) (popped s) (executed s).
Definition new_caller (pc : enqueue_pc) (s : pool) : pool :=
  Pool (tasks_ s) (stop_ s) (queue_mutex_ s) (workers_ s)
       (callers s ++ [pc]) (dtor s)
       (terminated s) (undefined s) (submitted s) (popped s) (executed s).
Definition set_dtor (d : dtor_pc) (s : pool) : pool :=
  Pool (tasks_ s) (stop_ s) (queue_mutex_ s) (workers_ s) (callers s) d
       (terminated s) (undefined s) (submitted s) (popped s) (executed s).
Definition set_terminated (s : pool) : pool :=
  Pool (tasks_ s) (stop_ s) (queue_mutex_ s) (workers_ s) (callers s) (dtor s)
       true (undefined s) (submitted s) (popped s) (executed s).
Definition set_undefined (s : pool) : pool :=
  Pool (tasks_ s) (stop_ s) (queue_mutex_ s) (workers_ s) (callers s) (dtor s)
       (terminated s) true (submitted s) (popped s) (executed s).
Definition log_submitted (f : task) (s : pool) : pool :=
  Pool (tasks_ s) (stop_ s) (queue_mutex_ s) (workers_ s) (callers s) (dtor s)
       (terminated s) (undefined s) (submitted s ++ [f]) (popped s) (executed s).
Definition log_popped (t : task) (s : pool) : pool :=
  Pool (tasks_ s) (stop_ s) (queue_mutex_ s) (workers_ s) (callers s) (dtor s)
       (terminated s) (undefined s) (submitted s) (popped s ++ [t]) (executed s).
Definition log_executed (t : task) (s : pool) : pool :=
  Pool (tasks_ s) (stop_ s) (queue_mutex_ s) (workers_ s) (callers s) (dtor s)
       (terminated s) (undefined s) (submitted s) (popped s) (executed s ++ [t]).

(** ** thread_pool::thread_pool (lines 99-103) *)

(** The loop [for (i = 0; i < threads; ++i) workers_.push_back(thread(...))]:
    each new thread stands at the top of [worker::operator()]. *)
Fixpoint spawn (threads : nat) (ws : list worker_pc) : list worker_pc :=
  match threads with
  | O => ws
  | S k => spawn k (ws ++ [WLock])
  end.

Definition thread_pool (threads : nat) : pool :=
  Pool [] false None (spawn threads []) [] DAlive false false [] [] [].

(** ** worker::operator() (lines 81-96) *)

Definition worker_step (i : nat) (s : pool) : option pool :=
  match workers_ s !! i with
  | None => None
  | Some WLock =>
      match queue_mutex_ s with
      | None => Some (set_worker i WCheckStop (set_mutex (Some (Worker i)) s))
      | Some _ => None
      end
  | Some WCheckStop =>
      if stop_ s
      then Some (set_worker i WDone (set_mutex None s))
      else Some (set_worker i WCheckEmpty s)
  | Some WCheckEmpty =>
      match tasks_ s with
      | [] => Some (set_worker i WWait (set_mutex None s))
      | _ :: _ => Some (set_worker i WFront s)
      end
  | Some WWait => None
  | Some WWoken =>
      match queue_mutex_ s with
      | None => Some (set_worker i WCheckEmpty (set_mutex (Some (Worker i)) s))
      | Some _ => None
      end
  | Some WFront =>
      match tasks_ s with
      | [] => Some (set_undefined s)
      | t :: _ => Some (set_worker i (WPop t) s)
      end
  | Some (WPop t) =>
      match tasks_ s with
      | [] => Some (set_undefined s)
      | t' :: q => Some (set_worker i (WUnlock t) (log_popped t' (set_tasks q s)))
      end
  | Some (WUnlock t) => Some (set_worker i (WRun t) (set_mutex None s))
  | Some (WRun t) =>
      if throws t
      then Some (set_terminated s)
      else Some (set_worker i WLock (log_executed t s))
  | Some WDone => None
  end.

(** A worker parked in [cv_.wait] may be woken without any notification. *)
Definition spurious_wake (i : nat) (s : pool) : option pool :=
  match workers_ s !! i with
  | Some WWait => Some (set_worker i WWoken s)
  | _ => None
  end.

(** ** thread_pool::enqueue (lines 114-120) *)

Definition is_waiting (pc : worker_pc) : bool :=
  match pc with WWait => true | _ => false end.

(** [cv_.notify_one()]: wakes one parked worker when there is one
    ([target] says which), and does nothing otherwise. *)
Definition notify_one (target : nat) (s : pool) : option pool :=
  match workers_ s !! target with
  | Some WWait => Some (set_worker target WWoken s)
  | _ => if existsb is_waiting (workers_ s) then None else Some s
  end.

Definition enqueue_step (j target : nat) (s : pool) : option pool :=
  match callers s !! j with
  | None => None
  | Some (ELock f) =>
      match queue_mutex_ s with
      | None => Some (set_caller j (EPush f) (set_mutex (Some (Caller j)) s))
      | Some _ => None
      end
  | Some (EPush f) =>
      Some (set_caller j ENotify (log_submitted f (set_tasks (tasks_ s ++ [f]) s)))
  | Some ENotify =>
      match notify_one target s with
      | Some s' => Some (set_caller j EUnlock s')
      | None => None
      end
  | Some EUnlock => Some (set_caller j EReturned (set_mutex None s))
  | Some EReturned => None
  end.

(** ** thread_pool::~thread_pool (lines 105-111) *)

(** Line 107, [stop_ = true]: a plain store. *)
Definition dtor_enter (s : pool) : option pool :=
  match dtor s with
  | DAlive => Some (set_dtor (DJoin 0) (set_stop true s))
  | _ => None
  end.

(** Lines 109-110, [thread.join()] on each worker in turn: returns only
    once that worker has left [operator()]. *)
Definition dtor_step (s : pool) : option pool :=
  match dtor s with
  | DJoin k =>
      match workers_ s !! k with
      | None => Some (set_dtor DDone s)
      | Some WDone => Some (set_dtor (DJoin (S k)) s)
      | Some _ => None
      end
  | _ => None
  end.

(** ** The interleaving *)

Inductive label :=
| RunWorker (i : nat)
| Spurious (i : nat)
| Call (f : task)
| RunCaller (j target : nat)
| Destroy
| RunDtor.

(** One scheduler choice.  [None]: the chosen thread is blocked, has
    finished, or the process is gone. *)
Definition step (l : label) (s : pool) : option pool :=
  if terminated s || undefined s then None else
  match l with
  | RunWorker i => worker_step i s
  | Spurious i => spurious_wake i s
  | Call f => Some (new_caller (ELock f) s)
  | RunCaller j target => enqueue_step j target s
  | Destroy => dtor_enter s
  | RunDtor => dtor_step s
  end.

Fixpoint run (ls : list label) (s : pool) : option pool :=
  match ls with
  | [] => Some s
  | l :: ls' =>
      match step l s with
      | Some s' => run ls' s'
      | None => None
      end
  end.

Definition reachable (threads : nat) (s : pool) : Prop :=
  ∃ ls, run ls (thread_pool threads) = Some s.

(** ** Lock discipline *)

(** Lines a worker executes between acquiring and releasing the mutex. *)
Definition owns (pc : worker_pc) : bool :=
  match pc with
  | WCheckStop | WCheckEmpty | WFront | WPop _ | WUnlock _ => true
  | _ => false
  end.

Definition caller_owns (pc : enqueue_pc) : bool :=
  match pc with
  | EPush _ | ENotify | EUnlock => true
  | _ => false
  end.

Record lock_inv (s : pool) : Prop := LockInv {
  li_workers : ∀ i pc, workers_ s !! i = Some pc → owns pc = true →
                       queue_mutex_ s = Some (Worker i);
  li_callers : ∀ j pc, callers s !! j = Some pc → caller_owns pc = true →
                       queue_mutex_ s = Some (Caller j);
  li_front : ∀ i, workers_ s !! i = Some WFront → tasks_ s ≠ [];
  li_pop : ∀ i t, workers_ s !! i = Some (WPop t) → ∃ q, tasks_ s = t :: q;
  li_defined : undefined s = false
}.

(** ** The history of pushes, pops and runs *)

(** A task a worker has taken off the queue and not yet finished. *)
Definition holding (pc : worker_pc) : option task :=
  match pc with
  | WUnlock t | WRun t => Some t
  | _ => None
  end.

Definition in_flight (ws : list worker_pc) : list task := omap holding ws.

Record history_inv (s : pool) : Prop := HistoryInv {
  hi_fifo : submitted s = popped s ++ tasks_ s;
  hi_account : popped s ≡ₚ executed s ++ in_flight (workers_ s)
}.

(** ** Progress of the joins *)

(** What the destructor has established so far: the flag is set exactly
    once it is entered, and the workers joined so far have returned. *)
Definition join_inv (s : pool) : Prop :=
  match dtor s with
  | DAlive => stop_ s = false
  | DJoin k => stop_ s = true ∧ ∀ i, i < k → workers_ s !! i = Some WDone
  | DDone => stop_ s = true ∧ ∀ i pc, workers_ s !! i = Some pc → pc = WDone
  end.

(** ** Sample executions *)

Definition hello : task := Task 0 false.
Definition boom : task := Task 1 true.

(** A whole call [enqueue(f)] by activation [j], waking worker [target]
    if it is parked. *)
Definition call_enqueue (j target : nat) (f : task) : list label :=
  [Call f; RunCaller j 0; RunCaller j 0; RunCaller j target; RunCaller j 0].

(** Worker [i] runs lines 83-90 on an empty queue and parks. *)
Definition park (i : nat) : list label :=
  [RunWorker i; RunWorker i; RunWorker i].

(** One worker, one queued task, the worker about to execute line 92. *)
Definition at_front : pool :=
  Pool [hello] false (Some (Worker 0)) [WFront] [EReturned] DAlive
       false false [hello] [] [].

Definition at_front_schedule : list label :=
  call_enqueue 0 0 hello ++ park 0.

(** One worker that has run two tasks in turn and is back at line 83. *)
Definition after_two : pool :=
  Pool [] false None [WLock] [EReturned; EReturned] DAlive
       false false [hello; Task 2 false] [hello; Task 2 false]
       [hello; Task 2 false].

Definition after_two_schedule : list label :=
  call_enqueue 0 0 hello ++ call_enqueue 1 0 (Task 2 false)
  ++ replicate 14 (RunWorker 0).

(** One worker that left at line 86 with a task still queued, and the
    destructor returned. *)
Definition dropped : pool :=
  Pool [hello] true None [WDone] [EReturned] DDone
       false false [hello] [] [].

Definition drop_schedule : list label :=
  [Destroy; RunWorker 0; RunWorker 0; RunDtor; RunDtor].

(** ** Shutdown and queued work *)

(** The specification's drain guarantee: whatever was submitted before the
    destructor set the flag has run by the time the destructor returns. *)
Definition drains_before_returning : Prop :=
  ∀ threads before after s0 s,
    run before (thread_pool threads) = Some s0 →
    run (Destroy :: after) s0 = Some s →
    dtor s = DDone →
    ∀ f, f ∈ submitted s0 → f ∈ executed s.

(** ** The blocking pop of the worker loop *)




(** One parked worker, [stop_] set, the destructor waiting in its first
    join. *)
Definition stuck : pool :=
  Pool [] true None [WWait] [] (DJoin 0) false false [] [] [].

(** ** The destructor *)

Definition is_call (l : label) : bool :=
  match l with Call _ => true | _ => false end.

(** Lines 89-90: the program counters of the wait loop. *)
Definition in_wait_loop (pc : worker_pc) : bool :=
  match pc with
  | WCheckEmpty | WWait | WWoken => true
  | _ => false
  end.

(** Every worker is inside the wait loop on an empty queue, no [enqueue]
    is under way, and the destructor is in its first join. *)
Record hung (s : pool) : Prop := Hung {
  hung_queue : tasks_ s = [];
  hung_dtor : dtor s = DJoin 0;
  hung_first : is_Some (workers_ s !! 0);
  hung_workers : ∀ i pc, workers_ s !! i = Some pc → in_wait_loop pc = true;
  hung_callers : ∀ j pc, callers s !! j = Some pc → pc = EReturned
}.

(** A pool that nobody has submitted to or destroyed yet. *)
Definition idle (ws : list worker_pc) : pool :=
  Pool [] false None ws [] DAlive false false [] [] [].

(** Every worker in turn runs lines 83-90 on the empty queue and parks. *)
Definition park_all (threads : nat) : list label :=
  flat_map park (seq 0 threads).

(** ** Who touches the shared state *)

(** The line that [l] is about to run reads or writes [stop_] or [tasks_]:
    lines 85, 89, 92, 93 of the worker, line 118 of [enqueue], line 107 of
    the destructor. *)
Definition accesses (l : label) (s : pool) : bool :=
  match l with
  | RunWorker i =>
      match workers_ s !! i with
      | Some (WCheckStop | WCheckEmpty | WFront | WPop _) => true
      | _ => false
      end
  | RunCaller j _ =>
      match callers s !! j with
      | Some (EPush _) => true
      | _ => false
      end
  | Destroy => true
  | _ => false
  end.

(** The thread that [l] runs owns [queue_mutex_]. *)
Definition owner_runs (l : label) (s : pool) : Prop :=
  match l with
  | RunWorker i => queue_mutex_ s = Some (Worker i)
  | RunCaller j _ => queue_mutex_ s = Some (Caller j)
  | _ => False
  end.

(** The specification's policy: the queue and the stop flag are only ever
    read or written by the thread that owns the mutex. *)
Definition shared_state_guarded : Prop :=
  ∀ threads s l s',
    reachable threads s → step l s = Some s' →
    accesses l s = true → owner_runs l s.

(** ** Submitting after shutdown *)




(** ** Construction *)



(** ** A task that throws *)

(** The specification's containment rule: when a task throws, its worker
    goes on to the next iteration of the loop and the process lives on. *)
Definition failure_contained : Prop :=
  ∀ threads s i t,
    reachable threads s →
    workers_ s !! i = Some (WRun t) → throws t = true →
    ∃ s', step (RunWorker i) s = Some s' ∧
          terminated s' = false ∧ workers_ s' !! i = Some WLock.

(** One worker about to call a task that throws (line 95), a second task
    waiting in the queue. *)
Definition about_to_throw : pool :=
  Pool [hello] false None [WRun boom] [EReturned; EReturned] DAlive
       false false [boom; hello] [boom] [].

Definition about_to_throw_schedule : list label :=
  call_enqueue 0 0 boom ++ call_enqueue 1 0 hello
  ++ replicate 6 (RunWorker 0).

(** ** Critical sections *)

(** Thread [o] stands at a line between its acquisition of [queue_mutex_]
    and its release. *)
Definition in_critical_section (t : tid) (s : pool) : Prop :=
  match t with
  | Worker i => ∃ pc, workers_ s !! i = Some pc ∧ owns pc = true
  | Caller j => ∃ pc, callers s !! j = Some pc ∧ caller_owns pc = true
  end.





(** ** Wake-ups *)

(** Some worker is not parked in [cv_.wait], or some [enqueue] has pushed
    and is about to run [cv_.notify_one()]. *)
Definition somebody_awake (s : pool) : Prop :=
  (∃ i pc, workers_ s !! i = Some pc ∧ pc ≠ WWait) ∨
  (∃ j, callers s !! j = Some ENotify).

(** ** Workers that wait on an empty queue *)

(** An activation of [enqueue] that has run line 118. *)
Definition past_push (pc : enqueue_pc) : bool :=
  match pc with
  | ENotify | EUnlock | EReturned => true
  | _ => false
  end.

(** Worker [i] is inside the wait loop of lines 89-90, the queue is empty
    and no [enqueue] under way has still to push. *)
Record waits_on_empty (i : nat) (s : pool) : Prop := WaitsOnEmpty {
  we_queue : tasks_ s = [];
  we_worker : ∃ pc, workers_ s !! i = Some pc ∧ in_wait_loop pc = true;
  we_callers : ∀ j pc, callers s !! j = Some pc → past_push pc = true
}.

(** ** Destroying a pool that was never used *)

(** A pool with [stop_] set that was never submitted to. *)
Definition stopped (ws : list worker_pc) (d : dtor_pc) : pool :=
  Pool [] true None ws [] d false false [] [] [].

(** Worker [i] takes the mutex (line 83), reads [stop_] set and returns
    (lines 85-86). *)
Definition leave (i : nat) : list label := [RunWorker i; RunWorker i].

Definition leave_all (threads : nat) : list label :=
  flat_map leave (seq 0 threads).

(** ** main (lines 122-160) *)

Definition num_threads : nat := 4.
Definition num_workers : nat := 100.

(** The lambda of lines 137-153 with [i] captured: it writes its greeting
    (and, for the last item, the elapsed time) to [cout] and returns; what
    it prints is not modelled. *)
Definition work_item (i : nat) : task := Task i false.

(** The first [n] work items, in the order the loop of line 134 submits
    them. *)
Definition work_items (n : nat) : list task := work_item <$> seq 0 n.

(** Program counter of [main]. *)
Inductive main_pc :=
| MLoop (i : nat)        (* 134: i < num_workers ? *)
| MEnqueue (i j : nat)   (* 137: inside pool.enqueue, activation j *)
| MIgnore                (* 157: cin.ignore() *)
| MReturn                (* 159: return 0, ~thread_pool running *)
| MExited.

(** The pool [main] owns, and where [main] stands. *)
Record process := Process { pool_of : pool; at_main : main_pc }.

(** Line 127, [thread_pool pool(num_threads)], has run. *)
Definition main_start : process :=
  Process (thread_pool num_threads) (MLoop 0).

Definition with_pool (pc : main_pc) (r : option pool) : option process :=
  match r with
  | Some s => Some (Process s pc)
  | None => None
  end.

(** One line of [main].  The loop submits one work item per iteration and
    waits for [enqueue] to return; [cin.ignore()] returns when a key is
    pressed, and [return 0] runs the destructor of the local [pool], line by
    line, before [main] is left. *)
Definition main_step (target : nat) (p : process) : option process :=
  let s := pool_of p in
  match at_main p with
  | MLoop i =>
      if i <? num_workers
      then with_pool (MEnqueue i (length (callers s))) (step (Call (work_item i)) s)
      else Some (Process s MIgnore)
  | MEnqueue i j =>
      match callers s !! j with
      | Some EReturned => Some (Process s (MLoop (S i)))
      | _ => with_pool (MEnqueue i j) (step (RunCaller j target) s)
      end
  | MIgnore => with_pool MReturn (step Destroy s)
  | MReturn =>
      match dtor s with
      | DDone => Some (Process s MExited)
      | _ => with_pool MReturn (step RunDtor s)
      end
  | MExited => None
  end.

(** What the scheduler can pick: the next line of [main], the next line
    of a worker, a spurious wake of a worker. *)
Inductive event :=
| Main (target : nat)
| Work (i : nat)
| Wake (i : nat).

Definition process_step (e : event) (p : process) : option process :=
  match e with
  | Main target => main_step target p
  | Work i => with_pool (at_main p) (step (RunWorker i) (pool_of p))
  | Wake i => with_pool (at_main p) (step (Spurious i) (pool_of p))
  end.

Fixpoint main_run (es : list event) (p : process) : option process :=
  match es with
  | [] => Some p
  | e :: es' =>
      match process_step e p with
      | Some p' => main_run es' p'
      | None => None
      end
  end.

Definition main_reachable (p : process) : Prop :=
  ∃ es, main_run es main_start = Some p.

(** [main] has left its loop. *)
Definition after_loop (pc : main_pc) : bool :=
  match pc with
  | MIgnore | MReturn | MExited => true
  | _ => false
  end.

Definition all_returned (s : pool) : Prop :=
  ∀ j c, callers s !! j = Some c → c = EReturned.

(** What [main] has submitted so far, by where it stands. *)
Definition main_inv (p : process) : Prop :=
  let s := pool_of p in
  match at_main p with
  | MLoop i =>
      i ≤ num_workers ∧ submitted s = work_items i ∧
      all_returned s ∧ dtor s = DAlive
  | MEnqueue i j =>
      i < num_workers ∧ dtor s = DAlive ∧
      (∀ j' c, j' ≠ j → callers s !! j' = Some c → c = EReturned) ∧
      (((callers s !! j = Some (ELock (work_item i)) ∨
         callers s !! j = Some (EPush (work_item i))) ∧
        submitted s = work_items i) ∨
       ((∃ c, callers s !! j = Some c ∧ past_push c = true) ∧
        submitted s = work_items (S i)))
  | MIgnore =>
      submitted s = work_items num_workers ∧ all_returned s ∧ dtor s = DAlive
  | MReturn =>
      submitted s = work_items num_workers ∧ all_returned s ∧ dtor s ≠ DAlive
  | MExited =>
      submitted s = work_items num_workers ∧ all_returned s ∧ dtor s = DDone
  end.

(** One work item from submission to completion: [main] runs line 137
    through the return of [enqueue], whose notification wakes worker 0;
    worker 0 pops the item, runs it and parks again. *)
Definition serve : list event := replicate 6 (Main 0) ++ replicate 9 (Work 0).

(** The run the comment of line 156 has in mind: the workers park, every
    work item is served, [main] reaches [cin.ignore()]. *)
Definition usual_run : list event :=
  flat_map (λ i, replicate 3 (Work i)) (seq 0 num_threads)
  ++ flat_map (λ _, serve) (seq 0 num_workers)
  ++ [Main 0].

Definition drained : process :=
  Process (Pool [] false None (replicate num_threads WWait)
                (replicate num_workers EReturned) DAlive false false
                (work_items num_workers) (work_items num_workers)
                (work_items num_workers))
          MIgnore.

(** [drained] after the key press: [stop_] is set, the destructor waits in
    its first join, worker 0 was woken once and parked again. *)
Definition hanging : process :=
  Process (Pool [] true None (replicate num_threads WWait)
                (replicate num_workers EReturned) (DJoin 0) false false
                (work_items num_workers) (work_items num_workers)
                (work_items num_workers))
          MReturn.

(** ** More sample executions *)

(** One worker, one task queued by a completed [enqueue], nothing else
    has run. *)
Definition queued : pool :=
  Pool [hello] false None [WLock] [EReturned] DAlive
       false false [hello] [] [].


(** [queued] after line 107 has run. *)
Definition stopping : pool :=
  Pool [hello] true None [WLock] [EReturned] (DJoin 0)
       false false [hello] [] [].

(** * Part 2: proofs *)

(** ** Basic facts about schedules *)

Lemma run_app (ls1 ls2 : list label) (s : pool) :
  run (ls1 ++ ls2) s =
  match run ls1 s with Some s' => run ls2 s' | None => None end.
Proof.
  revert s. induction ls1 as [|l ls1 IH]; intros s; simpl; [done|].
  destruct (step l s); [apply IH | done].
Qed.

Lemma reachable_init (threads : nat) : reachable threads (thread_pool threads).
Proof. by exists []. Qed.

Lemma reachable_step (threads : nat) (l : label) (s s' : pool) :
  reachable threads s → step l s = Some s' → reachable threads s'.
Proof.
  intros [ls Hls] Hstep. exists (ls ++ [l]).
  rewrite run_app, Hls. simpl. by rewrite Hstep.
Qed.

Lemma reachable_run (threads : nat) (ls : list label) (s s' : pool) :
  reachable threads s → run ls s = Some s' → reachable threads s'.
Proof.
  intros [ls0 Hls0] Hrun. exists (ls0 ++ ls). by rewrite run_app, Hls0.
Qed.

(** Induction along a schedule: a property of the freshly constructed pool
    that every step preserves holds in every reachable state. *)
Lemma reachable_invariant (threads : nat) (P : pool → Prop) :
  P (thread_pool threads) →
  (∀ l s s', reachable threads s → P s → step l s = Some s' → P s') →
  ∀ s, reachable threads s → P s.
Proof.
  intros Hinit Hstep s [ls Hls]. revert s Hls.
  induction ls as [|l ls IH] using rev_ind; intros s Hls.
  - simpl in Hls. by simplify_eq.
  - rewrite run_app in Hls.
    destruct (run ls (thread_pool threads)) as [s0|] eqn:Hs0; [|done].
    simpl in Hls. destruct (step l s0) as [s1|] eqn:Hs1; [|done].
    simplify_eq. eapply Hstep; [by exists ls | by apply IH | done].
Qed.

Lemma spawn_replicate (threads : nat) (ws : list worker_pc) :
  spawn threads ws = ws ++ replicate threads WLock.
Proof.
  revert ws. induction threads as [|k IH]; intros ws; simpl.
  - by rewrite app_nil_r.
  - by rewrite IH, <- app_assoc.
Qed.

Lemma thread_pool_workers (threads : nat) :
  workers_ (thread_pool threads) = replicate threads WLock.
Proof. simpl. by rewrite spawn_replicate. Qed.

(** ** Lock discipline *)

(** Splits a step into the source line that ran. *)
Ltac step_cases H :=
  unfold step, worker_step, spurious_wake, enqueue_step, notify_one,
         dtor_enter, dtor_step in H;
  repeat case_match; simplify_eq.

(** Reads a program counter back after one slot of a thread table changed. *)
Ltac read_slot :=
  repeat match goal with
  | H : <[_:=_]> _ !! _ = Some _ |- _ =>
      apply list_lookup_insert_Some in H as [(? & ? & ?)|(? & H)];
      simplify_eq
  | H : (_ ++ [_]) !! _ = Some _ |- _ =>
      apply lookup_snoc_Some in H as [(? & H)|(? & ?)];
      simplify_eq
  end.

Lemma lock_inv_init (threads : nat) : lock_inv (thread_pool threads).
Proof.
  split; rewrite ?thread_pool_workers; try done.
  - by intros i pc [-> _]%lookup_replicate.
  - by intros i [? _]%lookup_replicate.
  - by intros i t [? _]%lookup_replicate.
Qed.

(** Brings in what the invariant says about every thread in sight. *)
Ltac saturate Hw Hc Hf Hp :=
  repeat match goal with
  | H : workers_ _ !! _ = Some _ |- _ =>
      try (pose proof (Hw _ _ H ltac:(first [reflexivity | assumption])));
      try (pose proof (Hf _ H));
      try (destruct (Hp _ _ H) as [? ?]);
      revert H
  | H : callers _ !! _ = Some _ |- _ =>
      try (pose proof (Hc _ _ H ltac:(first [reflexivity | assumption])));
      revert H
  end; intros.

Lemma lock_inv_step (l : label) (s s' : pool) :
  lock_inv s → step l s = Some s' → lock_inv s'.
Proof.
  intros [Hw Hc Hf Hp Hd] Hstep. step_cases Hstep.
  all: split; simpl; try done; intros; read_slot; simpl in *; try done.
  all: saturate Hw Hc Hf Hp; simplify_eq; try done; eauto.
  all: congruence.
Qed.

Lemma lock_inv_reachable (threads : nat) (s : pool) :
  reachable threads s → lock_inv s.
Proof.
  apply (reachable_invariant threads lock_inv).
  - apply lock_inv_init.
  - intros l s0 s1 _ Hinv Hstep. by eapply lock_inv_step.
Qed.

(** ** The history of pushes, pops and runs *)

Lemma in_flight_insert (ws : list worker_pc) (i : nat) (pc pc' : worker_pc) :
  ws !! i = Some pc →
  option_list (holding pc) ++ in_flight (<[i:=pc']> ws)
  ≡ₚ option_list (holding pc') ++ in_flight ws.
Proof.
  intros Hi. unfold in_flight.
  rewrite insert_take_drop by eauto using lookup_lt_Some.
  rewrite <- (take_drop_middle ws i pc Hi) at 3.
  rewrite !omap_app. simpl.
  destruct (holding pc), (holding pc'); simpl;
    rewrite <- ?Permutation_middle; try done.
  by rewrite Permutation_swap.
Qed.

Lemma in_flight_all_done (ws : list worker_pc) :
  (∀ i pc, ws !! i = Some pc → pc = WDone) → in_flight ws = [].
Proof.
  unfold in_flight. induction ws as [|pc ws IH]; intros Hall; [done|].
  simpl. rewrite (Hall 0 pc eq_refl). simpl. apply IH.
  intros i pc' Hi. by apply (Hall (S i)).
Qed.

Lemma history_inv_init (threads : nat) : history_inv (thread_pool threads).
Proof.
  split; [done|]. rewrite thread_pool_workers. simpl.
  induction threads as [|k IH]; [done | by simpl].
Qed.

Lemma history_inv_step (l : label) (s s' : pool) :
  lock_inv s → history_inv s → step l s = Some s' → history_inv s'.
Proof.
  intros [Hw Hc Hf Hp Hd] [Hfifo Hacc] Hstep. step_cases Hstep.
  all: split; simpl; try done.
  all: try (rewrite Hfifo; match goal with
            | H : tasks_ _ = _ |- _ => rewrite H
            | _ => idtac end;
            by rewrite <- ?app_assoc).
  all: match goal with
       | H : workers_ _ !! ?i = Some ?pc
         |- context [in_flight (<[?i:=?pc']> _)] =>
           pose proof (in_flight_insert _ i pc pc' H) as Hins; simpl in Hins
       end.
  all: try (by rewrite Hins).
  - destruct (Hp _ _ H1) as [q ?]; simplify_eq.
    rewrite Hins, Hacc, <- app_assoc. apply Permutation_app_head.
    symmetry. apply Permutation_cons_append.
  - apply Permutation_cons_inv in Hins. by rewrite Hins.
  - rewrite Hacc, <- Hins, <- app_assoc. apply Permutation_app_head.
    done.
Qed.

Lemma history_inv_reachable (threads : nat) (s : pool) :
  reachable threads s → history_inv s.
Proof.
  apply (reachable_invariant threads history_inv).
  - apply history_inv_init.
  - intros l s0 s1 Hs0 Hinv Hstep.
    eapply history_inv_step; [by eapply lock_inv_reachable | done..].
Qed.

(** ** Progress of the joins *)

Lemma join_inv_init (threads : nat) : join_inv (thread_pool threads).
Proof. done. Qed.

Lemma join_inv_step (l : label) (s s' : pool) :
  join_inv s → step l s = Some s' → join_inv s'.
Proof.
  intros Hj Hstep. step_cases Hstep; unfold join_inv in *; simpl in *.
  all: repeat case_match; simplify_eq; try done.
  all: lazymatch type of Hj with
       | _ ∧ _ => destruct Hj as [Hs Hj]
       | _ => idtac
       end; (split; [done|]).
  all: intros; read_slot; eauto.
  all: try match goal with
       | H : workers_ _ !! ?i = Some _ |- <[?i:=_]> _ !! ?i0 = Some WDone =>
           destruct (decide (i = i0)) as [->|?];
           [ rewrite Hj in H by done; discriminate
           | rewrite list_lookup_insert_ne by done; eauto ]
       | H : workers_ _ !! _ = Some _ |- _ = WDone =>
           by pose proof (Hj _ _ H)
       end.
  - lia.
  - destruct (decide (i = k)) as [->|?]; [done | apply Hj; lia].
  - destruct (decide (i < k)) as [Hlt|?].
    + rewrite (Hj _ Hlt) in *. by simplify_eq.
    + match goal with
      | Hk : workers_ s !! k = None, Hi : workers_ s !! i = Some _ |- _ =>
          apply lookup_ge_None in Hk; apply lookup_lt_Some in Hi; lia
      end.
Qed.

Lemma join_inv_reachable (threads : nat) (s : pool) :
  reachable threads s → join_inv s.
Proof.
  apply (reachable_invariant threads join_inv).
  - apply join_inv_init.
  - intros l s0 s1 _ Hinv Hstep. by eapply join_inv_step.
Qed.

(** ** Sample executions *)

Lemma dropped_run :
  run (call_enqueue 0 0 hello ++ drop_schedule) (thread_pool 1) = Some dropped.
Proof. reflexivity. Qed.

(** ** The queue *)

(** C10.  In every reachable state the deque operations of lines 92 and 93
    are applied to a non-empty queue: no execution runs [front] or
    [pop_front] on an empty deque, and a worker standing at either line
    owns [queue_mutex_], sees a non-empty queue, and at line 93 the element
    it copied at line 92 is still the front. *)
Theorem worker_pops_nonempty (threads : nat) (s : pool) :
  reachable threads s →
  undefined s = false ∧
  ∀ i,
    (workers_ s !! i = Some WFront →
       queue_mutex_ s = Some (Worker i) ∧ tasks_ s ≠ []) ∧
    (∀ t, workers_ s !! i = Some (WPop t) →
       queue_mutex_ s = Some (Worker i) ∧ ∃ q, tasks_ s = t :: q).
Proof.
  intros [Hw _ Hf Hp Hd]%lock_inv_reachable.
  split; [done|]. intros i. split.
  - intros Hi. split; [by eapply Hw | by eapply Hf].
  - intros t Hi. split; [by eapply Hw | by eapply Hp].
Qed.

Lemma worker_pops_nonempty_witness :
  reachable 1 at_front ∧
  undefined at_front = false ∧
  ∀ i,
    (workers_ at_front !! i = Some WFront →
       queue_mutex_ at_front = Some (Worker i) ∧ tasks_ at_front ≠ []) ∧
    (∀ t, workers_ at_front !! i = Some (WPop t) →
       queue_mutex_ at_front = Some (Worker i) ∧ ∃ q, tasks_ at_front = t :: q).
Proof.
  assert (reachable 1 at_front) as Hreach
    by (exists at_front_schedule; reflexivity).
  split; [exact Hreach|].
  exact (worker_pops_nonempty 1 at_front Hreach).
Defined.

(** Every line of the program leaves the queue alone, appends one task at
    its back (line 118) or removes the task at its front (line 93). *)
Lemma queue_step (l : label) (s s' : pool) :
  step l s = Some s' →
  (tasks_ s' = tasks_ s ∧ submitted s' = submitted s ∧ popped s' = popped s) ∨
  (∃ f, tasks_ s' = tasks_ s ++ [f] ∧ submitted s' = submitted s ++ [f]
        ∧ popped s' = popped s) ∨
  (∃ t, tasks_ s = t :: tasks_ s' ∧ submitted s' = submitted s
        ∧ popped s' = popped s ++ [t]).
Proof.
  intros Hstep. step_cases Hstep; simpl; eauto 6.
Qed.

(** C8.  The queue is strict FIFO.  Tasks leave the queue in the order
    they entered it: the pops so far are an initial segment of the
    submissions so far and the queue holds the rest, in submission order;
    so when A was submitted before B and B has been popped, A was popped
    before it.  Each step appends at the back or removes at the front. *)
Theorem queue_is_fifo (threads : nat) (s : pool) :
  reachable threads s →
  submitted s = popped s ++ tasks_ s ∧
  (∀ i j a, i < j → submitted s !! i = Some a → j < length (popped s) →
            popped s !! i = Some a) ∧
  (∀ l s', step l s = Some s' →
     tasks_ s' = tasks_ s ∨
     (∃ f, tasks_ s' = tasks_ s ++ [f] ∧ submitted s' = submitted s ++ [f]) ∨
     (∃ t, tasks_ s = t :: tasks_ s' ∧ popped s' = popped s ++ [t])).
Proof.
  intros [Hfifo _]%history_inv_reachable. split; [done|]. split.
  - intros i j a Hij Hi Hj. rewrite Hfifo in Hi.
    by rewrite lookup_app_l in Hi by lia.
  - intros l s' Hstep.
    destruct (queue_step l s s' Hstep) as [(?&?&?)|[(f&?&?&?)|(t&?&?&?)]];
      eauto.
Qed.

Lemma queue_is_fifo_witness :
  reachable 1 after_two ∧
  submitted after_two = popped after_two ++ tasks_ after_two ∧
  (∀ i j a, i < j → submitted after_two !! i = Some a →
            j < length (popped after_two) →
            popped after_two !! i = Some a) ∧
  (∀ l s', step l after_two = Some s' →
     tasks_ s' = tasks_ after_two ∨
     (∃ f, tasks_ s' = tasks_ after_two ++ [f]
           ∧ submitted s' = submitted after_two ++ [f]) ∨
     (∃ t, tasks_ after_two = t :: tasks_ s'
           ∧ popped s' = popped after_two ++ [t])).
Proof.
  assert (reachable 1 after_two) as Hreach
    by (exists after_two_schedule; reflexivity).
  split; [exact Hreach|].
  exact (queue_is_fifo 1 after_two Hreach).
Defined.

(** ** Shutdown and queued work *)

(** C2, as stated, fails.  One worker, one task queued by a completed
    [enqueue]; the destructor sets [stop_] before the worker first takes
    the mutex; the worker reads the flag at line 85 and returns; both joins
    succeed and the destructor returns with the task still queued and never
    run. *)
Lemma shutdown_discards_queued_task : ¬ drains_before_returning.
Proof.
  intros Hdrain.
  assert (hello ∈ executed dropped) as Hin.
  { apply (Hdrain 1 (call_enqueue 0 0 hello) (tail drop_schedule)
             (Pool [hello] false None [WLock] [EReturned] DAlive
                   false false [hello] [] [])).
    - reflexivity.
    - reflexivity.
    - reflexivity.
    - simpl. apply list_elem_of_here. }
  simpl in Hin. by apply not_elem_of_nil in Hin.
Qed.

(** C2, amended.  No task is run more often than it was submitted, and none
    is lost track of: the submissions are, up to order, the tasks that ran to
    completion, the tasks workers hold between lines 93 and 95, and the tasks
    still queued.  Once the destructor has returned, every submitted task has
    either run exactly once or still sits in the queue, never run.  A worker
    at line 85 that reads [stop_] set returns at once and leaves the queue as
    it is. *)
Theorem tasks_run_at_most_once (threads : nat) (s : pool) :
  reachable threads s →
  submitted s ≡ₚ executed s ++ in_flight (workers_ s) ++ tasks_ s ∧
  (dtor s = DDone → submitted s ≡ₚ executed s ++ tasks_ s) ∧
  (∀ i, workers_ s !! i = Some WCheckStop → stop_ s = true →
        terminated s = false →
        ∃ s', step (RunWorker i) s = Some s' ∧
              workers_ s' !! i = Some WDone ∧ tasks_ s' = tasks_ s).
Proof.
  intros Hreach.
  destruct (history_inv_reachable _ _ Hreach) as [Hfifo Hacc].
  pose proof (join_inv_reachable _ _ Hreach) as Hjoin.
  destruct (lock_inv_reachable _ _ Hreach) as [_ _ _ _ Hdef].
  assert (submitted s ≡ₚ executed s ++ in_flight (workers_ s) ++ tasks_ s)
    as Hall by (by rewrite Hfifo, Hacc, <- app_assoc).
  split; [done|]. split.
  - intros Hdone. unfold join_inv in Hjoin. rewrite Hdone in Hjoin.
    destruct Hjoin as [_ Hall_done].
    by rewrite Hall, (in_flight_all_done _ Hall_done).
  - intros i Hi Hstop Hterm. unfold step, worker_step.
    rewrite Hterm, Hdef, Hi, Hstop. simpl. eexists. split; [done|].
    split; [|done]. simpl.
    apply list_lookup_insert_eq. by eapply lookup_lt_Some.
Qed.

Lemma tasks_run_at_most_once_witness :
  reachable 1 dropped ∧
  submitted dropped
    ≡ₚ executed dropped ++ in_flight (workers_ dropped) ++ tasks_ dropped ∧
  (dtor dropped = DDone →
   submitted dropped ≡ₚ executed dropped ++ tasks_ dropped) ∧
  (∀ i, workers_ dropped !! i = Some WCheckStop → stop_ dropped = true →
        terminated dropped = false →
        ∃ s', step (RunWorker i) dropped = Some s' ∧
              workers_ s' !! i = Some WDone ∧ tasks_ s' = tasks_ dropped).
Proof.
  assert (reachable 1 dropped) as Hreach
    by (exists (call_enqueue 0 0 hello ++ drop_schedule); reflexivity).
  split; [exact Hreach|].
  exact (tasks_run_at_most_once 1 dropped Hreach).
Defined.

(** ** The blocking pop of the worker loop *)





(** ** The destructor *)

Lemma hung_step (l : label) (s s' : pool) :
  hung s → is_call l = false → step l s = Some s' → hung s'.
Proof.
  intros [Hq Hd [pc0 H0] Hws Hcs] Hcall Hstep.
  step_cases Hstep; simpl in *; try done.
  all: try match goal with
       | H : workers_ _ !! _ = Some _ |- _ => by pose proof (Hws _ _ H)
       | H : callers _ !! _ = Some _ |- _ => by pose proof (Hcs _ _ H)
       end.
  all: split; simpl; try done.
  all: try (intros; read_slot; eauto; fail).
  all: try (destruct (decide (i = 0)) as [->|?];
            [ rewrite list_lookup_insert_eq by (by eapply lookup_lt_Some)
            | rewrite list_lookup_insert_ne by done ]; eauto; fail).
Qed.

Lemma hung_run (ls : list label) (s s' : pool) :
  hung s → existsb is_call ls = false → run ls s = Some s' → hung s'.
Proof.
  revert s. induction ls as [|l ls IH]; intros s Hs Hcalls Hrun; simpl in *.
  - by simplify_eq.
  - apply orb_false_iff in Hcalls as [Hl Hls].
    destruct (step l s) as [s1|] eqn:Hstep; [|done].
    eapply IH; [by eapply hung_step | done..].
Qed.

Lemma park_one (ws1 ws2 : list worker_pc) :
  run (park (length ws1)) (idle (ws1 ++ WLock :: ws2))
  = Some (idle (ws1 ++ WWait :: ws2)).
Proof.
  unfold park, run, step, worker_step, idle, set_worker, set_mutex. simpl.
  rewrite list_lookup_middle by done. simpl.
  rewrite insert_app_r_alt, Nat.sub_diag by done. simpl.
  rewrite list_lookup_middle by done. simpl.
  rewrite insert_app_r_alt, Nat.sub_diag by done. simpl.
  rewrite list_lookup_middle by done. simpl.
  by rewrite insert_app_r_alt, Nat.sub_diag by done.
Qed.

Lemma park_from (m k : nat) :
  run (flat_map park (seq k m)) (idle (replicate k WWait ++ replicate m WLock))
  = Some (idle (replicate (k + m) WWait)).
Proof.
  revert k. induction m as [|m IH]; intros k.
  - simpl. by rewrite app_nil_r, Nat.add_0_r.
  - change (flat_map park (seq k (S m)))
      with (park k ++ flat_map park (seq (S k) m)).
    rewrite run_app.
    pose proof (park_one (replicate k WWait) (replicate m WLock)) as Hpark.
    rewrite length_replicate in Hpark. simpl. simpl in Hpark.
    rewrite Hpark.
    replace (replicate k WWait ++ WWait :: replicate m WLock)
      with (replicate (S k) WWait ++ replicate m WLock)
      by (by rewrite replicate_S_end, <- app_assoc).
    rewrite IH. by replace (S k + m) with (k + S m) by lia.
Qed.

Lemma park_all_run (threads : nat) :
  run (park_all threads) (thread_pool threads)
  = Some (idle (replicate threads WWait)).
Proof.
  unfold park_all, thread_pool. rewrite spawn_replicate. simpl.
  apply (park_from threads 0).
Qed.

(** C1 fails on the code.  For every [threads ≥ 1]: let every worker park
    on the empty queue and then enter the destructor.  Line 107 sets [stop_]
    and notifies nobody, and line 89 never looks at [stop_], so along every
    schedule in which no further task is submitted (spurious wakes
    included) the workers stay inside the wait loop and the destructor stays
    in its first join: it never returns. *)
Theorem destructor_never_returns
    (threads : nat) (ls : list label) (s' : pool) :
  1 ≤ threads →
  existsb is_call ls = false →
  run (park_all threads ++ Destroy :: ls) (thread_pool threads) = Some s' →
  dtor s' = DJoin 0 ∧ dtor s' ≠ DDone ∧
  ∀ i pc, workers_ s' !! i = Some pc → in_wait_loop pc = true.
Proof.
  intros Hthreads Hcalls Hrun.
  rewrite run_app, park_all_run in Hrun.
  change (run (Destroy :: ls) (idle (replicate threads WWait)))
    with (run ls (set_dtor (DJoin 0)
                    (set_stop true (idle (replicate threads WWait)))))
    in Hrun.
  assert (hung s') as [Hq Hd Hfirst Hws Hcs].
  { eapply hung_run; [|done..]. split; simpl; try done.
    - apply lookup_lt_is_Some. rewrite length_replicate. lia.
    - by intros i pc [-> _]%lookup_replicate. }
  rewrite Hd. done.
Qed.

Lemma destructor_never_returns_witness :
  1 ≤ 1 ∧
  existsb is_call [Spurious 0; RunWorker 0; RunWorker 0] = false ∧
  run (park_all 1 ++ Destroy :: [Spurious 0; RunWorker 0; RunWorker 0])
      (thread_pool 1) = Some stuck ∧
  dtor stuck = DJoin 0 ∧ dtor stuck ≠ DDone ∧
  ∀ i pc, workers_ stuck !! i = Some pc → in_wait_loop pc = true.
Proof.
  split; [lia|]. split; [reflexivity|]. split; [reflexivity|].
  exact (destructor_never_returns 1 [Spurious 0; RunWorker 0; RunWorker 0]
           stuck (le_n 1) eq_refl eq_refl).
Defined.

(** Line 107 is enabled whoever owns the mutex; it touches neither the
    mutex nor any worker. *)
Lemma destroy_step (s s' : pool) :
  step Destroy s = Some s' →
  stop_ s' = true ∧ queue_mutex_ s' = queue_mutex_ s ∧
  workers_ s' = workers_ s ∧ dtor s' = DJoin 0.
Proof. intros Hstep. by step_cases Hstep. Qed.

(** C4 fails on the code.  Two workers: worker 0 is parked in [cv_.wait],
    worker 1 owns [queue_mutex_] at line 85.  Entering the destructor sets
    [stop_] at once, although worker 1 owns the mutex, and leaves worker 0
    parked: line 107 neither locks nor notifies, in any state. *)
Theorem destructor_neither_locks_nor_wakes :
  run (park 0 ++ [RunWorker 1; Destroy]) (thread_pool 2)
  = Some (Pool [] true (Some (Worker 1)) [WWait; WCheckStop] [] (DJoin 0)
               false false [] [] []) ∧
  ∀ s s', step Destroy s = Some s' →
          queue_mutex_ s' = queue_mutex_ s ∧ workers_ s' = workers_ s.
Proof.
  split; [reflexivity|].
  intros s s' Hstep. by destruct (destroy_step s s' Hstep) as (_ & ? & ? & _).
Qed.

(** ** Who touches the shared state *)

(** The workers and [enqueue] follow the policy. *)
Lemma workers_and_enqueue_guarded
    (threads : nat) (s s' : pool) (l : label) :
  reachable threads s → step l s = Some s' → l ≠ Destroy →
  accesses l s = true → owner_runs l s.
Proof.
  intros [Hw Hc _ _ _]%lock_inv_reachable Hstep Hl Hacc.
  destruct l; simpl in *; try done; repeat case_match; simplify_eq.
  all: first [by eapply Hw | by eapply Hc].
Qed.

(** C5 fails on the code.  One worker takes the mutex (line 83) and the
    destructor then runs line 107: [stop_] is written while the worker owns
    [queue_mutex_], by a thread that never locks it.  The workers read
    [stop_] under the mutex, and every access to the queue is under it; the
    destructor's store is the one access that is not. *)
Theorem stop_flag_written_without_lock :
  run [RunWorker 0; Destroy] (thread_pool 1)
  = Some (Pool [] true (Some (Worker 0)) [WCheckStop] [] (DJoin 0)
               false false [] [] []) ∧
  ¬ shared_state_guarded.
Proof.
  split; [reflexivity|]. intros Hguard.
  apply (Hguard 1 (Pool [] false (Some (Worker 0)) [WCheckStop] [] DAlive
                        false false [] [] [])
                Destroy
                (Pool [] true (Some (Worker 0)) [WCheckStop] [] (DJoin 0)
                      false false [] [] [])).
  - by exists [RunWorker 0].
  - reflexivity.
  - reflexivity.
Qed.

(** ** Submitting after shutdown *)





Lemma run_cons (l : label) (ls : list label) (s s1 : pool) (r : option pool) :
  step l s = Some s1 → run ls s1 = r → run (l :: ls) s = r.
Proof. intros Hstep Hrun. simpl. by rewrite Hstep. Qed.




(** ** Construction *)




(** ** A task that throws *)

(** C9, as stated, fails.  Line 95 calls the task with no handler around
    it, so the exception leaves [operator()], which is the thread's entry
    function: [std::terminate] ends the process. *)
Lemma task_failure_not_contained : ¬ failure_contained.
Proof.
  intros Hcontained.
  destruct (Hcontained 1 about_to_throw 0 boom)
    as (s' & Hstep & Hterm & _).
  - by exists about_to_throw_schedule.
  - reflexivity.
  - reflexivity.
  - vm_compute in Hstep. by simplify_eq.
Qed.

(** C9, amended.  A task that returns is recorded as run once and its
    worker goes back to line 83, leaving the queue and the other threads as
    they are.  The loop has no failure handler: a task that throws ends the
    process, the task is not recorded as run, and no thread takes another
    step, so the tasks still queued are never run. *)
Theorem task_outcome (threads : nat) (s : pool) (i : nat) (t : task) :
  reachable threads s →
  terminated s = false →
  workers_ s !! i = Some (WRun t) →
  ∃ s', step (RunWorker i) s = Some s' ∧
        tasks_ s' = tasks_ s ∧
        if throws t
        then terminated s' = true ∧ executed s' = executed s ∧
             ∀ l, step l s' = None
        else terminated s' = false ∧ executed s' = executed s ++ [t] ∧
             workers_ s' = <[i:=WLock]> (workers_ s).
Proof.
  intros [_ _ _ _ Hdef]%lock_inv_reachable Hterm Hi.
  unfold step, worker_step. rewrite Hterm, Hdef, Hi. simpl.
  destruct (throws t); eexists; (split; [done|]); simpl; done.
Qed.

Lemma task_outcome_witness :
  reachable 1 about_to_throw ∧
  terminated about_to_throw = false ∧
  workers_ about_to_throw !! 0 = Some (WRun boom) ∧
  ∃ s', step (RunWorker 0) about_to_throw = Some s' ∧
        tasks_ s' = tasks_ about_to_throw ∧
        terminated s' = true ∧ executed s' = executed about_to_throw ∧
        ∀ l, step l s' = None.
Proof.
  assert (reachable 1 about_to_throw) as Hreach
    by (exists about_to_throw_schedule; reflexivity).
  split; [exact Hreach|]. do 2 (split; [reflexivity|]).
  exact (task_outcome 1 about_to_throw 0 boom Hreach eq_refl eq_refl).
Defined.

(** ** Critical sections *)

Lemma owner_inv_step (l : label) (s s' : pool) :
  lock_inv s →
  (∀ t, queue_mutex_ s = Some t → in_critical_section t s) →
  step l s = Some s' →
  ∀ t, queue_mutex_ s' = Some t → in_critical_section t s'.
Proof.
  intros [Hw Hc Hf Hp Hd] Hown Hstep. step_cases Hstep; simpl.
  all: intros o Ho; simplify_eq; simpl.
  all: try (eexists; split; [apply list_lookup_insert_eq; by eapply lookup_lt_Some | done]).
  all: try (by apply Hown).
  all: pose proof (Hown _ Ho) as Hin; destruct o as [i0|j0]; simpl in *;
       destruct Hin as (pc0 & Hpc0 & Hopc0).
  all: try (exists pc0; split; [|done];
            first [ done | by apply lookup_app_l_Some ]).
  all: try match goal with
       | |- ∃ _, <[?i:=_]> _ !! ?i0 = Some _ ∧ _ =>
           destruct (decide (i = i0)) as [->|?];
           [ simplify_eq; simpl in *;
             first [ done
                   | eexists; split;
                     [ apply list_lookup_insert_eq; by eapply lookup_lt_Some
                     | done ] ]
           | exists pc0; split; [by rewrite list_lookup_insert_ne|done] ]
       end.
Qed.

Lemma owner_inv_reachable (threads : nat) (s : pool) (o : tid) :
  reachable threads s → queue_mutex_ s = Some o → in_critical_section o s.
Proof.
  intros Hreach. revert o.
  apply (reachable_invariant threads
           (λ s, ∀ o, queue_mutex_ s = Some o → in_critical_section o s));
    [done| |done].
  intros l s0 s1 Hs0 Hinv Hstep.
  eapply owner_inv_step; [by eapply lock_inv_reachable | done..].
Qed.

(** X1.  Mutual exclusion: in every reachable state at most one thread,
    worker or [enqueue] activation, stands between its acquisition of
    [queue_mutex_] and its release. *)
Theorem mutual_exclusion (threads : nat) (s : pool) (o1 o2 : tid) :
  reachable threads s →
  in_critical_section o1 s → in_critical_section o2 s → o1 = o2.
Proof.
  intros [Hw Hc _ _ _]%lock_inv_reachable H1 H2.
  assert (∀ o, in_critical_section o s → queue_mutex_ s = Some o) as Hheld.
  { intros [i|j] (pc & Hpc & Ho); [by eapply Hw | by eapply Hc]. }
  apply Hheld in H1, H2. congruence.
Qed.

Lemma mutual_exclusion_witness :
  reachable 1 at_front ∧
  in_critical_section (Worker 0) at_front ∧
  in_critical_section (Worker 0) at_front ∧
  Worker 0 = Worker 0.
Proof.
  assert (reachable 1 at_front) as Hreach
    by (exists at_front_schedule; reflexivity).
  assert (in_critical_section (Worker 0) at_front) as Hin
    by (exists WFront; split; reflexivity).
  exact (conj Hreach (conj Hin (conj Hin
           (mutual_exclusion 1 at_front (Worker 0) (Worker 0)
              Hreach Hin Hin)))).
Defined.

(** X2.  The model of the mutex is exact: in every reachable state
    [queue_mutex_] is owned by thread [o] if and only if [o] stands inside
    its critical section.  A thread that is parked in [cv_.wait], runs a
    task, has returned, or has not yet locked never owns the mutex. *)
Theorem mutex_held_by_critical_thread (threads : nat) (s : pool) (o : tid) :
  reachable threads s →
  (queue_mutex_ s = Some o ↔ in_critical_section o s).
Proof.
  intros Hreach. split.
  - by eapply owner_inv_reachable.
  - destruct (lock_inv_reachable _ _ Hreach) as [Hw Hc _ _ _].
    destruct o as [i|j]; intros (pc & Hpc & Ho); [by eapply Hw | by eapply Hc].
Qed.

Lemma mutex_held_by_critical_thread_witness :
  reachable 1 at_front ∧
  (queue_mutex_ at_front = Some (Worker 0)
   ↔ in_critical_section (Worker 0) at_front).
Proof.
  assert (reachable 1 at_front) as Hreach
    by (exists at_front_schedule; reflexivity).
  exact (conj Hreach
           (mutex_held_by_critical_thread 1 at_front (Worker 0) Hreach)).
Defined.






(** ** The life of the workers *)

Lemma pool_size_step (l : label) (s s' : pool) :
  step l s = Some s' → length (workers_ s') = length (workers_ s).
Proof.
  intros Hstep. step_cases Hstep; simpl; by rewrite ?length_insert.
Qed.

Lemma pool_size_reachable (threads : nat) (s : pool) :
  reachable threads s → length (workers_ s) = threads.
Proof.
  revert s. apply reachable_invariant.
  - by rewrite thread_pool_workers, length_replicate.
  - intros l s0 s1 _ <- Hstep. by eapply pool_size_step.
Qed.

Lemma no_exit_before_stop_step (l : label) (s s' : pool) :
  (stop_ s = false → ∀ i, workers_ s !! i ≠ Some WDone) →
  step l s = Some s' →
  stop_ s' = false → ∀ i, workers_ s' !! i ≠ Some WDone.
Proof.
  intros Hinv Hstep. step_cases Hstep; simpl; try done.
  all: intros Hs i0 Hi0; read_slot; first [by eapply Hinv | congruence].
Qed.

Lemma no_exit_before_stop (threads : nat) (s : pool) :
  reachable threads s → stop_ s = false →
  ∀ i, workers_ s !! i ≠ Some WDone.
Proof.
  revert s.
  apply (reachable_invariant threads
           (λ s, stop_ s = false → ∀ i, workers_ s !! i ≠ Some WDone)).
  - rewrite thread_pool_workers. by intros _ i [? _]%lookup_replicate.
  - intros l s0 s1 _ Hinv Hstep. by eapply no_exit_before_stop_step.
Qed.

(** X4.  The pool keeps its size and its workers until it is destroyed:
    in every reachable state there are exactly [threads] workers, [stop_] is
    set exactly when the destructor has been entered, and as long as it has
    not been entered no worker has left [operator()]. *)
Theorem workers_stay_until_shutdown (threads : nat) (s : pool) :
  reachable threads s →
  length (workers_ s) = threads ∧
  (stop_ s = true ↔ dtor s ≠ DAlive) ∧
  (dtor s = DAlive → ∀ i, workers_ s !! i ≠ Some WDone).
Proof.
  intros Hreach.
  pose proof (join_inv_reachable _ _ Hreach) as Hjoin.
  unfold join_inv in Hjoin.
  split; [by apply pool_size_reachable|]. split.
  - destruct (dtor s); split; try done.
    + by rewrite Hjoin.
    + by destruct Hjoin.
    + by destruct Hjoin.
  - intros Halive. rewrite Halive in Hjoin.
    by eapply no_exit_before_stop.
Qed.

Lemma workers_stay_until_shutdown_witness :
  reachable 1 after_two ∧
  length (workers_ after_two) = 1 ∧
  (stop_ after_two = true ↔ dtor after_two ≠ DAlive) ∧
  (dtor after_two = DAlive → ∀ i, workers_ after_two !! i ≠ Some WDone).
Proof.
  assert (reachable 1 after_two) as Hreach
    by (exists after_two_schedule; reflexivity).
  exact (conj Hreach (workers_stay_until_shutdown 1 after_two Hreach)).
Defined.

Lemma step_keeps (l : label) (s s' : pool) :
  step l s = Some s' →
  (stop_ s = true → stop_ s' = true) ∧
  (dtor s = DDone → dtor s' = DDone) ∧
  (∀ i, workers_ s !! i = Some WDone → workers_ s' !! i = Some WDone) ∧
  (∀ j, callers s !! j = Some EReturned → callers s' !! j = Some EReturned) ∧
  submitted s `prefix_of` submitted s' ∧
  popped s `prefix_of` popped s' ∧
  executed s `prefix_of` executed s'.
Proof.
  intros Hstep. step_cases Hstep; simpl.
  all: repeat split; try done; try (by apply prefix_app_r).
  all: try (by intros; apply lookup_app_l_Some).
  all: intros k Hk;
       match goal with
       | |- <[?i:=_]> _ !! _ = _ =>
           destruct (decide (i = k)) as [->|?];
           [ by simplify_eq | by rewrite list_lookup_insert_ne ]
       end.
Qed.

(** X5.  Nothing is undone.  Along every execution, from any state:
    [stop_] once set stays set, a destructor that has returned stays
    returned, a worker that has left [operator()] never runs again, an
    [enqueue] that has returned stays returned, and the histories of
    submitted, popped and completed tasks only grow at their end. *)
Theorem nothing_is_undone (ls : list label) (s s' : pool) :
  run ls s = Some s' →
  (stop_ s = true → stop_ s' = true) ∧
  (dtor s = DDone → dtor s' = DDone) ∧
  (∀ i, workers_ s !! i = Some WDone → workers_ s' !! i = Some WDone) ∧
  (∀ j, callers s !! j = Some EReturned → callers s' !! j = Some EReturned) ∧
  submitted s `prefix_of` submitted s' ∧
  popped s `prefix_of` popped s' ∧
  executed s `prefix_of` executed s'.
Proof.
  revert s. induction ls as [|l ls IH]; intros s Hrun; simpl in Hrun.
  - by simplify_eq.
  - destruct (step l s) as [s1|] eqn:Hstep; [|done].
    destruct (step_keeps _ _ _ Hstep) as (H1 & H2 & H3 & H4 & H5 & H6 & H7).
    destruct (IH _ Hrun) as (I1 & I2 & I3 & I4 & I5 & I6 & I7).
    repeat split; eauto; by etrans.
Qed.

Lemma nothing_is_undone_witness :
  run drop_schedule queued = Some dropped ∧
  (stop_ queued = true → stop_ dropped = true) ∧
  (dtor queued = DDone → dtor dropped = DDone) ∧
  (∀ i, workers_ queued !! i = Some WDone →
        workers_ dropped !! i = Some WDone) ∧
  (∀ j, callers queued !! j = Some EReturned →
        callers dropped !! j = Some EReturned) ∧
  submitted queued `prefix_of` submitted dropped ∧
  popped queued `prefix_of` popped dropped ∧
  executed queued `prefix_of` executed dropped.
Proof.
  assert (run drop_schedule queued = Some dropped) as Hrun by reflexivity.
  exact (conj Hrun (nothing_is_undone drop_schedule queued dropped Hrun)).
Defined.

(** ** Wake-ups *)

Lemma nobody_waiting (ws : list worker_pc) :
  ws ≠ [] → existsb is_waiting ws = false →
  ∃ i pc, ws !! i = Some pc ∧ pc ≠ WWait.
Proof.
  destruct ws as [|pc ws]; [done|]. simpl.
  intros _ [Hpc _]%orb_false_iff. exists 0, pc. split; [done|].
  by intros ->.
Qed.

Lemma somebody_awake_step (l : label) (s s' : pool) :
  workers_ s ≠ [] →
  (tasks_ s ≠ [] → somebody_awake s) →
  step l s = Some s' →
  tasks_ s' ≠ [] → somebody_awake s'.
Proof.
  intros Hsome Hinv Hstep. step_cases Hstep; simpl; try done.
  all: intros Hq.
  all: try (left; eexists _, _; split;
            [apply list_lookup_insert_eq; by eapply lookup_lt_Some | done]).
  all: try (right; eexists; apply list_lookup_insert_eq;
            by eapply lookup_lt_Some).
  all: try (left; by apply nobody_waiting).
  all: destruct (Hinv Hq) as [(i0 & pc0 & Hi0 & Hpc0)|(j0 & Hj0)];
       [left; by exists i0, pc0|right; exists j0; simpl].
  - by apply lookup_app_l_Some.
  - rewrite list_lookup_insert_ne; [done|congruence].
  - rewrite list_lookup_insert_ne; [done|congruence].
Qed.

(** X6.  No wake-up is lost.  In a pool with at least one worker, whenever
    the queue is non-empty some worker is not parked in [cv_.wait] (and, as
    long as the destructor has not been entered, that worker has not
    returned either), or some [enqueue] has pushed and is about to notify:
    a queued task is never left with every worker asleep. *)
Theorem no_lost_wakeup (threads : nat) (s : pool) :
  1 ≤ threads → reachable threads s → tasks_ s ≠ [] →
  (∃ i pc, workers_ s !! i = Some pc ∧ pc ≠ WWait ∧
           (dtor s = DAlive → pc ≠ WDone)) ∨
  (∃ j, callers s !! j = Some ENotify).
Proof.
  intros Hthreads Hreach Hq.
  assert (somebody_awake s) as [(i & pc & Hi & Hpc)|Hnotify]; [|left|by right].
  - revert s Hreach Hq.
    apply (reachable_invariant threads
             (λ s, tasks_ s ≠ [] → somebody_awake s)); [done|].
    intros l s0 s1 Hs0 Hinv Hstep.
    eapply somebody_awake_step; [|done..].
    pose proof (pool_size_reachable _ _ Hs0) as Hlen.
    destruct (workers_ s0); [simpl in Hlen; lia | done].
  - exists i, pc. repeat split; [done..|].
    intros Halive ->.
    pose proof (join_inv_reachable _ _ Hreach) as Hjoin.
    unfold join_inv in Hjoin. rewrite Halive in Hjoin.
    by eapply no_exit_before_stop.
Qed.

Lemma no_lost_wakeup_witness :
  1 ≤ 1 ∧ reachable 1 at_front ∧ tasks_ at_front ≠ [] ∧
  ((∃ i pc, workers_ at_front !! i = Some pc ∧ pc ≠ WWait ∧
            (dtor at_front = DAlive → pc ≠ WDone)) ∨
   (∃ j, callers at_front !! j = Some ENotify)).
Proof.
  assert (reachable 1 at_front) as Hreach
    by (exists at_front_schedule; reflexivity).
  assert (tasks_ at_front ≠ []) as Hq by discriminate.
  exact (conj (le_n 1) (conj Hreach (conj Hq
           (no_lost_wakeup 1 at_front (le_n 1) Hreach Hq)))).
Defined.

(** ** One worker *)

Lemma single_worker_step (l : label) (s s' : pool) (pc : worker_pc) :
  lock_inv s →
  workers_ s = [pc] → popped s = executed s ++ option_list (holding pc) →
  step l s = Some s' →
  ∃ pc', workers_ s' = [pc'] ∧
         popped s' = executed s' ++ option_list (holding pc').
Proof.
  intros [_ _ _ Hp _] Hws Hpop Hstep.
  step_cases Hstep; simpl; rewrite ?Hws in *.
  all: repeat match goal with
       | H : [_] !! _ = Some _ |- _ =>
           apply list_lookup_singleton_Some in H as [-> ->]
       end; simpl in *.
  all: try (eexists; split; [done|]; simpl; by rewrite ?app_nil_r in * ).
  destruct (Hp 0 t eq_refl) as [q ?]; simplify_eq.
  eexists; split; [done|]. simpl. by rewrite Hpop, app_nil_r.
Qed.

(** X7.  A pool with one worker runs the tasks one at a time and in the
    order they were submitted: the completed tasks are an initial segment of
    the popped ones, which are an initial segment of the submitted ones, and
    at most one popped task is not yet completed. *)
Theorem single_worker_runs_in_order (s : pool) :
  reachable 1 s →
  executed s `prefix_of` popped s ∧
  popped s `prefix_of` submitted s ∧
  length (popped s) ≤ S (length (executed s)).
Proof.
  intros Hreach.
  assert (∃ pc, workers_ s = [pc] ∧
                popped s = executed s ++ option_list (holding pc))
    as (pc & Hws & Hpop).
  { revert s Hreach. apply reachable_invariant.
    - by exists WLock.
    - intros l s0 s1 Hs0 (pc & Hws & Hpop) Hstep.
      eapply single_worker_step; [by eapply lock_inv_reachable | done..]. }
  destruct (history_inv_reachable _ _ Hreach) as [Hfifo _].
  split; [|split].
  - rewrite Hpop. by apply prefix_app_r.
  - rewrite Hfifo. by apply prefix_app_r.
  - rewrite Hpop, length_app. destruct (holding pc); simpl; lia.
Qed.

Lemma single_worker_runs_in_order_witness :
  reachable 1 after_two ∧
  executed after_two `prefix_of` popped after_two ∧
  popped after_two `prefix_of` submitted after_two ∧
  length (popped after_two) ≤ S (length (executed after_two)).
Proof.
  assert (reachable 1 after_two) as Hreach
    by (exists after_two_schedule; reflexivity).
  exact (conj Hreach (single_worker_runs_in_order after_two Hreach)).
Defined.

(** ** Workers that wait on an empty queue *)

Lemma waits_on_empty_step (i : nat) (l : label) (s s' : pool) :
  waits_on_empty i s → is_call l = false → step l s = Some s' →
  waits_on_empty i s'.
Proof.
  intros [Hq (pc & Hpc & Hloop) Hcs] Hcall Hstep.
  step_cases Hstep; simpl in *; try done.
  all: try match goal with
       | H : callers _ !! _ = Some _ |- _ => by pose proof (Hcs _ _ H)
       end.
  all: split; simpl; try done.
  all: try (by exists pc).
  all: try (intros; read_slot; eauto; fail).
  all: match goal with
       | |- ∃ _, <[?k:=_]> _ !! _ = Some _ ∧ _ =>
           destruct (decide (k = i)) as [->|?];
           [ simplify_eq; simpl in *;
             first [ done
                   | eexists; split;
                     [ apply list_lookup_insert_eq; by eapply lookup_lt_Some
                     | done ] ]
           | exists pc; split; [by rewrite list_lookup_insert_ne|done] ]
       end.
Qed.

Lemma waits_on_empty_run (i : nat) (ls : list label) (s s' : pool) :
  waits_on_empty i s → existsb is_call ls = false → run ls s = Some s' →
  waits_on_empty i s'.
Proof.
  revert s. induction ls as [|l ls IH]; intros s Hs Hcalls Hrun; simpl in *.
  - by simplify_eq.
  - apply orb_false_iff in Hcalls as [Hl Hls].
    destruct (step l s) as [s1|] eqn:Hstep; [|done].
    eapply IH; [by eapply waits_on_empty_step | done..].
Qed.

Lemma waits_on_empty_blocks
    (threads : nat) (s s' : pool) (i : nat) (pc : worker_pc) (ls : list label) :
  reachable threads s →
  tasks_ s = [] →
  workers_ s !! i = Some pc → in_wait_loop pc = true →
  (∀ j c, callers s !! j = Some c → past_push c = true) →
  existsb is_call ls = false →
  run ls s = Some s' →
  dtor s' ≠ DDone ∧
  tasks_ s' = [] ∧
  ∃ pc', workers_ s' !! i = Some pc' ∧ in_wait_loop pc' = true.
Proof.
  intros Hreach Hq Hpc Hloop Hcs Hcalls Hrun.
  assert (waits_on_empty i s') as [Hq' (pc' & Hpc' & Hloop') _].
  { eapply waits_on_empty_run; [|done..]. split; eauto. }
  split; [|by eauto].
  intros Hdone.
  pose proof (join_inv_reachable _ _ (reachable_run _ _ _ _ Hreach Hrun))
    as Hjoin.
  unfold join_inv in Hjoin. rewrite Hdone in Hjoin.
  destruct Hjoin as [_ Hall]. by rewrite (Hall _ _ Hpc') in Hloop'.
Qed.

(** X8.  One waiting worker is enough to block the destructor.  From any
    reachable state in which the queue is empty, some worker is inside the
    wait loop of lines 89-90 and every [enqueue] under way has already
    pushed: along every execution in which no further task is submitted,
    that worker stays inside the wait loop, the queue stays empty, and the
    destructor does not return, whether it was entered before or after. *)
Theorem waiting_worker_blocks_destructor
    (threads : nat) (s s' : pool) (i : nat) (pc : worker_pc) (ls : list label) :
  reachable threads s →
  tasks_ s = [] →
  workers_ s !! i = Some pc → in_wait_loop pc = true →
  (∀ j c, callers s !! j = Some c → past_push c = true) →
  existsb is_call ls = false →
  run ls s = Some s' →
  dtor s' ≠ DDone ∧
  tasks_ s' = [] ∧
  ∃ pc', workers_ s' !! i = Some pc' ∧ in_wait_loop pc' = true.
Proof. apply waits_on_empty_blocks. Qed.

Lemma waiting_worker_blocks_destructor_witness :
  reachable 1 stuck ∧
  tasks_ stuck = [] ∧
  workers_ stuck !! 0 = Some WWait ∧ in_wait_loop WWait = true ∧
  (∀ j c, callers stuck !! j = Some c → past_push c = true) ∧
  existsb is_call [Spurious 0; RunWorker 0; RunWorker 0] = false ∧
  run [Spurious 0; RunWorker 0; RunWorker 0] stuck = Some stuck ∧
  dtor stuck ≠ DDone ∧
  tasks_ stuck = [] ∧
  ∃ pc', workers_ stuck !! 0 = Some pc' ∧ in_wait_loop pc' = true.
Proof.
  assert (reachable 1 stuck) as Hreach
    by (exists (park 0 ++ [Destroy]); reflexivity).
  assert (∀ j c, callers stuck !! j = Some c → past_push c = true) as Hcs
    by (intros j c Hj; destruct j; discriminate Hj).
  split; [exact Hreach|]. do 3 (split; [reflexivity|]).
  split; [exact Hcs|]. do 2 (split; [reflexivity|]).
  exact (waiting_worker_blocks_destructor 1 stuck stuck 0 WWait
           [Spurious 0; RunWorker 0; RunWorker 0]
           Hreach eq_refl eq_refl eq_refl Hcs eq_refl eq_refl).
Defined.

(** ** Workers outside the wait loop at shutdown *)

Lemma outside_wait_loop_step (i : nat) (l : label) (s s' : pool) :
  stop_ s = true ∧
  (∃ pc, workers_ s !! i = Some pc ∧ in_wait_loop pc = false) →
  step l s = Some s' →
  stop_ s' = true ∧
  (∃ pc, workers_ s' !! i = Some pc ∧ in_wait_loop pc = false).
Proof.
  intros [Hstop (pc & Hpc & Hout)] Hstep.
  step_cases Hstep; simpl in *; (split; [done|]).
  all: try (by exists pc).
  all: match goal with
       | |- ∃ _, <[?k:=_]> _ !! _ = Some _ ∧ _ =>
           destruct (decide (k = i)) as [->|?];
           [ simplify_eq; simpl in *;
             first [ done
                   | eexists; split;
                     [ apply list_lookup_insert_eq; by eapply lookup_lt_Some
                     | done ] ]
           | exists pc; split; [by rewrite list_lookup_insert_ne|done] ]
       end.
Qed.

(** X13.  Only the wait loop can hold a worker back at shutdown.  From any
    state in which [stop_] is set and a worker stands outside the wait loop
    of lines 89-90 (about to lock, between the pop and the end of its task,
    or already returned), that worker never enters the wait loop again,
    along any execution: its next test of line 85 makes it return. *)
Theorem no_waiting_after_stop
    (ls : list label) (s s' : pool) (i : nat) (pc : worker_pc) :
  stop_ s = true →
  workers_ s !! i = Some pc → in_wait_loop pc = false →
  run ls s = Some s' →
  stop_ s' = true ∧
  ∃ pc', workers_ s' !! i = Some pc' ∧ in_wait_loop pc' = false.
Proof.
  intros Hstop Hpc Hout.
  assert (stop_ s = true ∧
          (∃ pc, workers_ s !! i = Some pc ∧ in_wait_loop pc = false))
    as Hinv by eauto.
  clear Hstop Hpc Hout. revert s Hinv.
  induction ls as [|l ls IH]; intros s Hinv Hrun; simpl in Hrun.
  - by simplify_eq.
  - destruct (step l s) as [s1|] eqn:Hstep; [|done].
    eapply IH; [by eapply outside_wait_loop_step | done].
Qed.

Lemma no_waiting_after_stop_witness :
  stop_ stopping = true ∧
  workers_ stopping !! 0 = Some WLock ∧ in_wait_loop WLock = false ∧
  run (tail drop_schedule) stopping = Some dropped ∧
  stop_ dropped = true ∧
  ∃ pc', workers_ dropped !! 0 = Some pc' ∧ in_wait_loop pc' = false.
Proof.
  do 4 (split; [reflexivity|]).
  exact (no_waiting_after_stop (tail drop_schedule) stopping dropped 0 WLock
           eq_refl eq_refl eq_refl eq_refl).
Defined.

(** ** Destroying a pool that was never used *)

Lemma leave_one (ws1 ws2 : list worker_pc) (d : dtor_pc) :
  run (leave (length ws1)) (stopped (ws1 ++ WLock :: ws2) d)
  = Some (stopped (ws1 ++ WDone :: ws2) d).
Proof.
  unfold leave, run, step, worker_step, stopped, set_worker, set_mutex. simpl.
  rewrite list_lookup_middle by done. simpl.
  rewrite insert_app_r_alt, Nat.sub_diag by done. simpl.
  rewrite list_lookup_middle by done. simpl.
  by rewrite insert_app_r_alt, Nat.sub_diag by done.
Qed.

Lemma leave_from (d : dtor_pc) (m k : nat) :
  run (flat_map leave (seq k m))
      (stopped (replicate k WDone ++ replicate m WLock) d)
  = Some (stopped (replicate (k + m) WDone) d).
Proof.
  revert k. induction m as [|m IH]; intros k.
  - simpl. by rewrite app_nil_r, Nat.add_0_r.
  - change (flat_map leave (seq k (S m)))
      with (leave k ++ flat_map leave (seq (S k) m)).
    rewrite run_app.
    pose proof (leave_one (replicate k WDone) (replicate m WLock) d) as Hleave.
    rewrite length_replicate in Hleave. simpl. simpl in Hleave.
    rewrite Hleave.
    replace (replicate k WDone ++ WDone :: replicate m WLock)
      with (replicate (S k) WDone ++ replicate m WLock)
      by (by rewrite replicate_S_end, <- app_assoc).
    rewrite IH. by replace (S k + m) with (k + S m) by lia.
Qed.

Lemma join_from (m k : nat) :
  run (replicate (S m) RunDtor) (stopped (replicate (k + m) WDone) (DJoin k))
  = Some (stopped (replicate (k + m) WDone) DDone).
Proof.
  revert k. induction m as [|m IH]; intros k.
  - rewrite Nat.add_0_r. unfold run, step, dtor_step, stopped. simpl.
    rewrite lookup_ge_None_2 by (by rewrite length_replicate). done.
  - change (replicate (S (S m)) RunDtor)
      with (RunDtor :: replicate (S m) RunDtor).
    apply (run_cons _ _ _ (stopped (replicate (k + S m) WDone) (DJoin (S k)))).
    + unfold step, dtor_step, stopped. simpl.
      rewrite lookup_replicate_2 by lia. done.
    + replace (k + S m) with (S k + m) by lia. apply IH.
Qed.

(** X9.  A pool of any size that is destroyed before its workers reach
    the wait loop shuts down: when every worker takes the mutex only after
    line 107 has run, each reads [stop_] set and returns, every join
    succeeds and the destructor returns, with the mutex free. *)
Theorem unused_pool_shuts_down (threads : nat) :
  run (Destroy :: leave_all threads ++ replicate (S threads) RunDtor)
      (thread_pool threads)
  = Some (stopped (replicate threads WDone) DDone).
Proof.
  apply (run_cons _ _ _ (stopped (replicate threads WLock) (DJoin 0))).
  - unfold step, dtor_enter, thread_pool. simpl. by rewrite spawn_replicate.
  - rewrite run_app. unfold leave_all.
    pose proof (leave_from (DJoin 0) threads 0) as Hleave.
    simpl in Hleave. rewrite Hleave. apply (join_from threads 0).
Qed.

(** ** Abnormal termination *)

Lemma holding_in_flight (ws : list worker_pc) (i : nat) (pc : worker_pc) (t : task) :
  ws !! i = Some pc → holding pc = Some t → t ∈ in_flight ws.
Proof.
  intros Hi Ht. unfold in_flight. apply list_elem_of_omap.
  exists pc. split; [|done]. apply list_elem_of_lookup. by exists i.
Qed.

Lemma terminated_by_throw (threads : nat) (s : pool) :
  reachable threads s → terminated s = true →
  ∃ i t, workers_ s !! i = Some (WRun t) ∧ throws t = true ∧ t ∈ submitted s.
Proof.
  intros Hreach Hterm.
  assert (∃ i t, workers_ s !! i = Some (WRun t) ∧ throws t = true)
    as (i & t & Hi & Ht).
  { revert s Hreach Hterm.
    apply (reachable_invariant threads
             (λ s, terminated s = true →
                   ∃ i t, workers_ s !! i = Some (WRun t) ∧ throws t = true));
      [done|].
    intros l s0 s1 _ Hinv Hstep.
    step_cases Hstep; simpl; try done.
    all: try (intros Ht; apply orb_false_iff in H as [H _]; congruence).
    intros _. eauto. }
  exists i, t. repeat split; [done..|].
  destruct (history_inv_reachable _ _ Hreach) as [Hfifo Hacc].
  rewrite Hfifo, Hacc. apply elem_of_app. left. apply elem_of_app. right.
  by eapply holding_in_flight.
Qed.



(** ** main *)

Lemma with_pool_Some (pc : main_pc) (r : option pool) (p : process) :
  with_pool pc r = Some p → r = Some (pool_of p) ∧ at_main p = pc.
Proof. destruct r; simpl; intros; by simplify_eq. Qed.

Lemma main_run_app (es1 es2 : list event) (p : process) :
  main_run (es1 ++ es2) p =
  match main_run es1 p with Some p' => main_run es2 p' | None => None end.
Proof.
  revert p. induction es1 as [|e es1 IH]; intros p; simpl; [done|].
  destruct (process_step e p); [apply IH | done].
Qed.

Lemma main_reachable_invariant (P : process → Prop) :
  P main_start →
  (∀ e p p', main_reachable p → P p → process_step e p = Some p' → P p') →
  ∀ p, main_reachable p → P p.
Proof.
  intros Hinit Hstep p [es Hes]. revert p Hes.
  induction es as [|e es IH] using rev_ind; intros p Hes.
  - simpl in Hes. by simplify_eq.
  - rewrite main_run_app in Hes.
    destruct (main_run es main_start) as [p0|] eqn:Hp0; [|done].
    simpl in Hes. destruct (process_step e p0) as [p1|] eqn:Hp1; [|done].
    simplify_eq. eapply Hstep; [by exists es | by apply IH | done].
Qed.

(** Every event is at most one line of the pool's code, and [main] calls
    [enqueue] only from its loop. *)
Lemma process_step_pool (e : event) (p p' : process) :
  process_step e p = Some p' →
  (pool_of p' = pool_of p ∨
   ∃ l, step l (pool_of p) = Some (pool_of p') ∧
        (after_loop (at_main p) = true → is_call l = false)) ∧
  (after_loop (at_main p) = true → after_loop (at_main p') = true).
Proof.
  destruct p as [s pc]. destruct e as [target|i|i]; simpl.
  - unfold main_step. simpl. destruct pc as [i|i j| | |]; simpl.
    + destruct (i <? num_workers).
      * intros [Hs Hpc]%with_pool_Some. rewrite Hpc.
        split; [right; eauto|done].
      * intros; simplify_eq. by split; [left|].
    + destruct (callers s !! j) as [[]|] eqn:Hj;
        try (intros [Hs Hpc]%with_pool_Some; rewrite Hpc;
             split; [right; eauto|done]).
      intros; simplify_eq. by split; [left|].
    + intros [Hs Hpc]%with_pool_Some. rewrite Hpc. split; [right; eauto|done].
    + destruct (dtor s);
        try (intros [Hs Hpc]%with_pool_Some; rewrite Hpc;
             split; [right; eauto|done]).
      intros; simplify_eq. by split; [left|].
    + done.
  - intros [Hs Hpc]%with_pool_Some. rewrite Hpc. split; [right; eauto|done].
  - intros [Hs Hpc]%with_pool_Some. rewrite Hpc. split; [right; eauto|done].
Qed.

Lemma main_reachable_pool (p : process) :
  main_reachable p → reachable num_threads (pool_of p).
Proof.
  revert p.
  apply (main_reachable_invariant (λ p, reachable num_threads (pool_of p))).
  - apply reachable_init.
  - intros e p0 p1 _ Hreach Hstep.
    destruct (process_step_pool _ _ _ Hstep) as [[->|(l & Hl & _)] _];
      [done | by eapply reachable_step].
Qed.

Lemma main_run_after_loop (es : list event) (p p' : process) :
  after_loop (at_main p) = true → main_run es p = Some p' →
  after_loop (at_main p') = true ∧
  ∃ ls, existsb is_call ls = false ∧ run ls (pool_of p) = Some (pool_of p').
Proof.
  revert p. induction es as [|e es IH]; intros p Hafter Hrun; simpl in Hrun.
  - simplify_eq. split; [done|]. by exists [].
  - destruct (process_step e p) as [p1|] eqn:Hstep; [|done].
    destruct (process_step_pool _ _ _ Hstep) as [Hpool Hafter1].
    destruct (IH _ (Hafter1 Hafter) Hrun) as (Hafter' & ls & Hcalls & Hls).
    split; [done|]. destruct Hpool as [Heq|(l & Hl & Hcall)].
    + exists ls. by rewrite <- Heq.
    + exists (l :: ls). simpl. by rewrite Hl, (Hcall Hafter), Hcalls.
Qed.

Lemma main_reachable_run (es : list event) (p p' : process) :
  main_reachable p → main_run es p = Some p' → main_reachable p'.
Proof.
  intros [es0 Hes0] Hrun. exists (es0 ++ es). by rewrite main_run_app, Hes0.
Qed.

Lemma worker_frame (l : label) (s s' : pool) :
  step l s = Some s' →
  match l with RunWorker _ | Spurious _ => True | _ => False end →
  callers s' = callers s ∧ submitted s' = submitted s ∧ dtor s' = dtor s.
Proof. intros Hstep Hl. by step_cases Hstep. Qed.

Lemma dtor_frame (l : label) (s s' : pool) :
  step l s = Some s' →
  match l with Destroy | RunDtor => True | _ => False end →
  callers s' = callers s ∧ submitted s' = submitted s ∧ dtor s' ≠ DAlive.
Proof. intros Hstep Hl. by step_cases Hstep. Qed.

Lemma call_frame (f : task) (s s' : pool) :
  step (Call f) s = Some s' →
  callers s' = callers s ++ [ELock f] ∧ submitted s' = submitted s ∧
  dtor s' = dtor s.
Proof. intros Hstep. by step_cases Hstep. Qed.

Lemma caller_frame (j target : nat) (s s' : pool) :
  step (RunCaller j target) s = Some s' →
  dtor s' = dtor s ∧
  ∃ c c', callers s !! j = Some c ∧ callers s' = <[j:=c']> (callers s) ∧
    ((∃ f, c = ELock f ∧ c' = EPush f ∧ submitted s' = submitted s) ∨
     (∃ f, c = EPush f ∧ c' = ENotify ∧ submitted s' = submitted s ++ [f]) ∨
     (c = ENotify ∧ c' = EUnlock ∧ submitted s' = submitted s) ∨
     (c = EUnlock ∧ c' = EReturned ∧ submitted s' = submitted s)).
Proof.
  intros Hstep. step_cases Hstep; simpl; (split; [done|]).
  all: eexists _, _; split; [done|]; split; [done|]; eauto 10.
Qed.

Lemma work_items_S (i : nat) : work_items (S i) = work_items i ++ [work_item i].
Proof. unfold work_items. by rewrite seq_S, fmap_app. Qed.

Lemma main_inv_step (e : event) (p p' : process) :
  main_inv p → process_step e p = Some p' → main_inv p'.
Proof.
  destruct p as [s pc], p' as [s' pc']. unfold main_inv, all_returned. simpl.
  intros Hinv Hstep. destruct e as [target|i|i]; simpl in Hstep.
  2,3: apply with_pool_Some in Hstep as [Hs' Hpc']; simpl in *; subst pc';
       destruct (worker_frame _ _ _ Hs' I) as (-> & -> & ->); done.
  unfold main_step in Hstep. simpl in Hstep.
  destruct pc as [i|i j| | |].
  - destruct Hinv as (Hi & Hsub & Hret & Hd).
    destruct (i <? num_workers) eqn:Hlt.
    + apply Nat.ltb_lt in Hlt.
      apply with_pool_Some in Hstep as [Hs' Hpc']; simpl in *; subst pc'.
      destruct (call_frame _ _ _ Hs') as (Hcs & -> & ->).
      repeat split; [done..| |].
      * intros j' c Hj'. rewrite Hcs. intros [Hl|[Hge Hr]]%lookup_app_Some;
          [by eapply Hret|].
        apply list_lookup_singleton_Some in Hr as [Hr _]. lia.
      * left. split; [|done]. left. rewrite Hcs. by apply list_lookup_middle.
    + apply Nat.ltb_ge in Hlt. simplify_eq.
      assert (i = num_workers) as -> by lia. done.
  - destruct Hinv as (Hi & Hd & Hothers & Hcase).
    assert (callers s !! j = Some EReturned ∨ callers s !! j ≠ Some EReturned)
      as [Hret|Hnot] by (destruct (callers s !! j) as [[]|]; by eauto).
    + rewrite Hret in Hstep. simplify_eq.
      destruct Hcase as [[[Hc|Hc] _]|[_ Hsub]]; [congruence..|].
      repeat split; [lia|done| |done].
      intros j' c Hj'. destruct (decide (j' = j)) as [->|?];
        [congruence | by eapply Hothers].
    + assert (with_pool (MEnqueue i j) (step (RunCaller j target) s)
              = Some (Process s' pc')) as Hrun.
      { destruct (callers s !! j) as [[]|]; done. }
      clear Hstep.
      apply with_pool_Some in Hrun as [Hs' Hpc']; simpl in *; subst pc'.
      destruct (caller_frame _ _ _ _ Hs')
        as (-> & c & c' & Hc & Hcs & Heffect).
      assert (j < length (callers s)) as Hlen by (by eapply lookup_lt_Some).
      assert (callers s' !! j = Some c') as Hc'
        by (rewrite Hcs; by apply list_lookup_insert_eq).
      repeat split; [done..| |].
      * intros j' c0 Hj'. rewrite Hcs, list_lookup_insert_ne by done.
        by apply Hothers.
      * destruct Heffect as [(f & -> & -> & ->)|[(f & -> & -> & ->)|
                             [(-> & -> & ->)|(-> & -> & ->)]]].
        -- destruct Hcase as [[[Hc0|Hc0] Hsub]|[(c0 & Hc0 & Hpast) _]];
             [|congruence|by simplify_eq].
           left. split; [right; congruence|done].
        -- destruct Hcase as [[[Hc0|Hc0] Hsub]|[(c0 & Hc0 & Hpast) _]];
             [congruence| |by simplify_eq].
           right. split; [by eauto|].
           rewrite work_items_S, Hsub. congruence.
        -- destruct Hcase as [[[Hc0|Hc0] _]|[_ Hsub]]; [congruence..|].
           right. split; [by eauto|done].
        -- destruct Hcase as [[[Hc0|Hc0] _]|[_ Hsub]]; [congruence..|].
           right. split; [by eauto|done].
  - destruct Hinv as (Hsub & Hret & Hd).
    apply with_pool_Some in Hstep as [Hs' Hpc']; simpl in *; subst pc'.
    destruct (dtor_frame _ _ _ Hs' I) as (-> & -> & Hd'). done.
  - destruct Hinv as (Hsub & Hret & Hd).
    destruct (dtor s) eqn:Hds; [done| |by simplify_eq].
    apply with_pool_Some in Hstep as [Hs' Hpc']; simpl in *; subst pc'.
    destruct (dtor_frame _ _ _ Hs' I) as (-> & -> & Hd'). done.
  - done.
Qed.

Lemma main_inv_reachable (p : process) : main_reachable p → main_inv p.
Proof.
  revert p. apply (main_reachable_invariant main_inv).
  - unfold main_inv, num_workers. simpl. repeat split; [lia|done].
  - intros e p0 p1 _ Hinv Hstep. by eapply main_inv_step.
Qed.

Lemma work_items_prefix (i n : nat) :
  i ≤ n → work_items i `prefix_of` work_items n.
Proof.
  intros Hi. replace n with (i + (n - i)) by lia.
  unfold work_items. rewrite seq_app, fmap_app. by apply prefix_app_r.
Qed.

Lemma work_items_NoDup (n : nat) : NoDup (work_items n).
Proof.
  apply NoDup_fmap_2; [|apply NoDup_seq].
  intros i j Hij. by injection Hij.
Qed.

Lemma main_submitted_prefix (p : process) :
  main_reachable p →
  submitted (pool_of p) `prefix_of` work_items num_workers ∧
  (after_loop (at_main p) = true →
   submitted (pool_of p) = work_items num_workers ∧
   all_returned (pool_of p)).
Proof.
  intros Hinv%main_inv_reachable. unfold main_inv in Hinv.
  destruct (at_main p) as [i|i j| | |]; simpl.
  - destruct Hinv as (Hi & -> & _). split; [by apply work_items_prefix|done].
  - destruct Hinv as (Hi & _ & _ & [[_ ->]|[_ ->]]);
      (split; [apply work_items_prefix; lia|done]).
  - destruct Hinv as (-> & Hret & _). done.
  - destruct Hinv as (-> & Hret & _). done.
  - destruct Hinv as (-> & Hret & _). done.
Qed.

(** X11.  What [main] gets done.  In every state [main] can reach: the
    work items were submitted in index order 0, 1, 2, ... and are handed to
    the workers in that order; no work item is run twice and nothing but a
    work item is run; the process has not been terminated; and once [main]
    has left its loop all [num_workers] items have been submitted. *)
Theorem main_runs_each_item_once (p : process) :
  main_reachable p →
  submitted (pool_of p) `prefix_of` work_items num_workers ∧
  popped (pool_of p) `prefix_of` submitted (pool_of p) ∧
  NoDup (executed (pool_of p)) ∧
  (∀ t, t ∈ executed (pool_of p) → ∃ i, i < num_workers ∧ t = work_item i) ∧
  terminated (pool_of p) = false ∧
  (after_loop (at_main p) = true →
   submitted (pool_of p) = work_items num_workers).
Proof.
  intros Hmain.
  destruct (main_submitted_prefix _ Hmain) as [[rest Hrest] Hafter].
  pose proof (main_reachable_pool _ Hmain) as Hreach.
  destruct (history_inv_reachable _ _ Hreach) as [Hfifo Hacc].
  assert (∀ t, t ∈ submitted (pool_of p) →
               ∃ i, i < num_workers ∧ t = work_item i) as Hitems.
  { intros t Ht.
    assert (t ∈ work_items num_workers) as Hin
      by (rewrite Hrest; apply elem_of_app; by left).
    apply list_elem_of_fmap in Hin as (i & -> & Hi).
    apply elem_of_seq in Hi. exists i. split; [lia|done]. }
  assert (NoDup (submitted (pool_of p))) as Hnodup.
  { pose proof (work_items_NoDup num_workers) as Hnd.
    rewrite Hrest in Hnd. by apply NoDup_app in Hnd as (? & _ & _). }
  repeat split.
  - by exists rest.
  - rewrite Hfifo. by apply prefix_app_r.
  - rewrite Hfifo, Hacc in Hnodup.
    apply NoDup_app in Hnodup as (Hnd & _ & _).
    by apply NoDup_app in Hnd as (? & _ & _).
  - intros t Ht. apply Hitems. rewrite Hfifo, Hacc.
    apply elem_of_app. left. apply elem_of_app. by left.
  - destruct (terminated (pool_of p)) eqn:Hterm; [|done].
    destruct (terminated_by_throw _ _ Hreach Hterm) as (i & t & _ & Ht & Hin).
    destruct (Hitems _ Hin) as (k & _ & ->). done.
  - intros Hpc. by apply Hafter.
Qed.

Lemma main_runs_each_item_once_witness :
  main_reachable drained ∧
  submitted (pool_of drained) `prefix_of` work_items num_workers ∧
  popped (pool_of drained) `prefix_of` submitted (pool_of drained) ∧
  NoDup (executed (pool_of drained)) ∧
  (∀ t, t ∈ executed (pool_of drained) →
        ∃ i, i < num_workers ∧ t = work_item i) ∧
  terminated (pool_of drained) = false ∧
  (after_loop (at_main drained) = true →
   submitted (pool_of drained) = work_items num_workers).
Proof.
  assert (main_reachable drained) as Hmain
    by (exists usual_run; vm_compute; reflexivity).
  exact (conj Hmain (main_runs_each_item_once drained Hmain)).
Defined.

(** X12.  [main] does not return once a worker waits.  If [main] has left
    its loop while the queue is empty and some worker is inside the wait
    loop, as after the usual run in which every work item was served before
    the key press, then along every further execution [main] never gets past
    the destructor of [pool]: the program does not exit. *)
Theorem main_never_exits_past_a_waiting_worker
    (p p' : process) (i : nat) (pc : worker_pc) (es : list event) :
  main_reachable p →
  after_loop (at_main p) = true →
  tasks_ (pool_of p) = [] →
  workers_ (pool_of p) !! i = Some pc → in_wait_loop pc = true →
  main_run es p = Some p' →
  at_main p' ≠ MExited.
Proof.
  intros Hmain Hafter Hq Hpc Hloop Hrun Hexit.
  destruct (main_submitted_prefix _ Hmain) as [_ Hret].
  destruct (Hret Hafter) as [_ Hreturned].
  destruct (main_run_after_loop _ _ _ Hafter Hrun) as (_ & ls & Hcalls & Hls).
  destruct (waits_on_empty_blocks num_threads
              (pool_of p) (pool_of p') i pc ls
              (main_reachable_pool _ Hmain) Hq Hpc Hloop) as [Hdtor _];
    [|done..|].
  { intros j c Hj. by rewrite (Hreturned _ _ Hj). }
  pose proof (main_inv_reachable _ (main_reachable_run _ _ _ Hmain Hrun))
    as Hinv.
  unfold main_inv in Hinv. rewrite Hexit in Hinv.
  by destruct Hinv as (_ & _ & ?).
Qed.

Lemma main_never_exits_past_a_waiting_worker_witness :
  main_reachable drained ∧
  after_loop (at_main drained) = true ∧
  tasks_ (pool_of drained) = [] ∧
  workers_ (pool_of drained) !! 0 = Some WWait ∧
  in_wait_loop WWait = true ∧
  main_run [Main 0; Wake 0; Work 0; Work 0] drained = Some hanging ∧
  at_main hanging ≠ MExited.
Proof.
  assert (main_reachable drained) as Hmain
    by (exists usual_run; vm_compute; reflexivity).
  split; [exact Hmain|]. do 5 (split; [reflexivity|]).
  exact (main_never_exits_past_a_waiting_worker drained hanging 0 WWait
           [Main 0; Wake 0; Work 0; Work 0]
           Hmain eq_refl eq_refl eq_refl eq_refl eq_refl).
Defined.
